(** * scripts/refactor-screen.py: the theme refactoring script

    A shallow embedding of the script and of the parts of Python's [re] and
    [str] that it calls, followed by the properties of its four text
    substitutions and of its command line behaviour.

    A Python [str] is a sequence of code points, modelled as [list N].  The
    regular expressions of the script are kept as syntax trees and run by a
    backtracking matcher, the way the [re] module runs them. *)

From Stdlib Require Import NArith Ascii String Lia.
From stdpp Require Import base option list gmap.

Local Open Scope nat_scope.

(** ** Text *)

Abbreviation str := (list N).

(** The code points of an ASCII literal. *)
Definition text (s : string) : str :=
  map N_of_ascii (list_ascii_of_string s).
Arguments text : simpl never.

(** The line feed, written ["\n"] in the script. *)
Definition NL : N := 10%N.

(** [s.startswith(l)] and the remainder after [l]. *)
Fixpoint strip_prefix (l s : str) : option str :=
  match l with
  | [] => Some s
  | a :: l' =>
      match s with
      | [] => None
      | b :: s' => if N.eqb a b then strip_prefix l' s' else None
      end
  end.

Definition starts_with (l s : str) : bool :=
  match strip_prefix l s with Some _ => true | None => false end.

(** [l in s], as a proposition and as the scan that decides it. *)
Definition occurs (l s : str) : Prop :=
  exists a b, s = a ++ l ++ b.

Fixpoint containsb (l s : str) : bool :=
  starts_with l s ||
  match s with
  | [] => false
  | _ :: s' => containsb l s'
  end.

(** A literal has a border when a proper suffix of it is also a prefix: only
    then can two of its occurrences overlap. *)
Definition unborderedb (l : str) : bool :=
  forallb (fun k => negb (starts_with (drop k l) l)) (seq 1 (length l - 1)).

(** The last character read: the last one of [l], or the one before [l]. *)
Definition last_char (prev : option N) (l : str) : option N :=
  match last l with Some c => Some c | None => prev end.

(** [str.replace(old, new)]: every occurrence of [old], left to right, without
    overlap.  [skip] counts the characters of a replaced occurrence that are
    still to be passed over. *)
Fixpoint replace_from (old new : str) (skip : nat) (s : str) : str :=
  match s with
  | [] => match old with [] => new | _ => [] end
  | c :: s' =>
      match skip with
      | S k => replace_from old new k s'
      | O =>
          if starts_with old s then
            match old with
            | [] => new ++ c :: replace_from old new 0 s'
            | _ :: old' => new ++ replace_from old new (length old') s'
            end
          else c :: replace_from old new 0 s'
      end
  end.

Definition str_replace (old new s : str) : str := replace_from old new 0 s.

(** ** Files, the console and exceptions *)

Inductive mode := ReadMode | WriteMode.

(** A file: its text, as [read] returns it and [write] takes it, and whether
    it may be opened for reading and for writing. *)
Record file := { data : str; readable : bool; writable : bool }.

(** What the process asks of its environment, in order. *)
Inductive event :=
| EvOpen (path : str) (m : mode)
| EvPrint (line : str).

Record world := { files : gmap str file; events : list event }.

(** The exceptions of the script: the one [open] raises, whatever its
    subclass, and the one [sys.exit] raises. *)
Inductive exn :=
| OSError
| SystemExit (code : Z).

Inductive result (A : Type) :=
| Ok (a : A)
| Raise (e : exn).
Arguments Ok {A} a.
Arguments Raise {A} e.

Definition io (A : Type) : Type := world -> result A * world.

#[local] Instance io_ret : MRet io := fun A a w => (Ok a, w).

#[local] Instance io_bind : MBind io := fun A B k m w =>
  match m w with
  | (Ok a, w') => k a w'
  | (Raise e, w') => (Raise e, w')
  end.

Definition log (e : event) (w : world) : world :=
  {| files := files w; events := events w ++ [e] |}.

(** [with open(path, 'r') as f: f.read()].  The content of a file is its
    text; bytes that do not decode to text are not modelled. *)
Definition read_file (path : str) : io str := fun w =>
  let w' := log (EvOpen path ReadMode) w in
  match files w !! path with
  | Some f => if readable f then (Ok (data f), w') else (Raise OSError, w')
  | None => (Raise OSError, w')
  end.

(** [with open(path, 'w') as f: f.write(content)]: the file is created when
    it is missing and truncated when it is there. *)
Definition write_file (path content : str) : io unit := fun w =>
  let w' := log (EvOpen path WriteMode) w in
  match files w !! path with
  | Some f =>
      if writable f then
        (Ok tt,
         {| files := <[path := {| data := content; readable := readable f;
                                  writable := writable f |}]> (files w');
            events := events w' |})
      else (Raise OSError, w')
  | None =>
      (Ok tt,
       {| files := <[path := {| data := content; readable := true;
                                writable := true |}]> (files w');
          events := events w' |})
  end.

(** [print(line)], on a console that can show the line. *)
Definition print (line : str) : io unit := fun w =>
  (Ok tt, log (EvPrint line) w).

Definition sys_exit (code : Z) : io unit := fun w =>
  (Raise (SystemExit code), w).

(** A table of the Unicode database with no alphanumeric character outside
    ASCII: enough to run the script on ASCII files. *)
Definition ascii_only (c : N) : bool := false.

(** ** Regular expressions *)

Section Script.

(** [str.isalnum] of a code point outside ASCII is a fact of the Unicode
    database of the interpreter; the development holds for any such table. *)
Variable unicode_alnum : N -> bool.

Definition ascii_alnum (c : N) : bool :=
  ((48 <=? c) && (c <=? 57) || (65 <=? c) && (c <=? 90)
   || (97 <=? c) && (c <=? 122))%N.

(** The class [\w] of a [str] pattern: alphanumeric or the underscore. *)
Definition is_word (c : N) : bool :=
  if (c <? 128)%N then ascii_alnum c || (c =? 95)%N else unicode_alnum c.

Definition is_word_opt (c : option N) : bool :=
  match c with Some c => is_word c | None => false end.

Inductive charclass :=
| CWord            (* \w *)
| CNot (c : N).    (* [^c] *)

Definition in_class (k : charclass) (c : N) : bool :=
  match k with
  | CWord => is_word c
  | CNot d => negb (N.eqb c d)
  end.

(** The pieces the script's patterns are made of, in sequence. *)
Inductive node :=
| Lit (l : str)               (* literal characters *)
| PlusGreedy (k : charclass)  (* k+ *)
| StarLazy (k : charclass)    (* k*? *)
| WordBoundary                (* \b *)
| Open (g : nat)              (* the opening parenthesis of group g *)
| Close (g : nat).            (* its closing parenthesis *)

Definition pattern := list node.

(** Where each group opened and closed, as offsets from the start of the
    match; the latest entry of a group comes first. *)
Record marks := { opens : list (nat * nat); closes : list (nat * nat) }.

Definition no_marks : marks := {| opens := []; closes := [] |}.

Definition mark_open (g pos : nat) (mk : marks) : marks :=
  {| opens := (g, pos) :: opens mk; closes := closes mk |}.

Definition mark_close (g pos : nat) (mk : marks) : marks :=
  {| opens := opens mk; closes := (g, pos) :: closes mk |}.

Fixpoint assoc (g : nat) (l : list (nat * nat)) : option nat :=
  match l with
  | [] => None
  | (h, v) :: l' => if Nat.eqb g h then Some v else assoc g l'
  end.

(** What remains to be matched: called with the character before the current
    position, the rest of the subject and the offset reached. *)
Definition cont := option N -> str -> nat -> option (nat * marks).

(** [k*] greedy: take one more character first, give it back when the rest of
    the pattern fails. *)
Fixpoint greedy_star (k : charclass) (rest : cont)
    (prev : option N) (s : str) (pos : nat) : option (nat * marks) :=
  match s with
  | c :: s' =>
      if in_class k c then
        match greedy_star k rest (Some c) s' (S pos) with
        | Some r => Some r
        | None => rest prev s pos
        end
      else rest prev s pos
  | [] => rest prev s pos
  end.

(** [k*?] lazy: try the rest of the pattern first, take one more character
    when it fails. *)
Fixpoint lazy_star (k : charclass) (rest : cont)
    (prev : option N) (s : str) (pos : nat) : option (nat * marks) :=
  match rest prev s pos with
  | Some r => Some r
  | None =>
      match s with
      | c :: s' =>
          if in_class k c then lazy_star k rest (Some c) s' (S pos) else None
      | [] => None
      end
  end.

(** The backtracking matcher, anchored at the current position.  It returns
    the length of the match and the marks of its groups. *)
Fixpoint match_here (p : pattern) (mk : marks)
    (prev : option N) (s : str) (pos : nat) {struct p} : option (nat * marks) :=
  match p with
  | [] => Some (pos, mk)
  | Lit l :: p' =>
      match strip_prefix l s with
      | Some s' => match_here p' mk (last_char prev l) s' (pos + length l)
      | None => None
      end
  | PlusGreedy k :: p' =>
      match s with
      | c :: s' =>
          if in_class k c
          then greedy_star k (match_here p' mk) (Some c) s' (S pos)
          else None
      | [] => None
      end
  | StarLazy k :: p' => lazy_star k (match_here p' mk) prev s pos
  | WordBoundary :: p' =>
      if xorb (is_word_opt prev) (is_word_opt (head s))
      then match_here p' mk prev s pos
      else None
  | Open g :: p' => match_here p' (mark_open g pos mk) prev s pos
  | Close g :: p' => match_here p' (mark_close g pos mk) prev s pos
  end.

(** [pattern.match] at the position whose preceding character is [prev]. *)
Definition match_at (p : pattern) (prev : option N) (s : str)
  : option (nat * marks) :=
  match_here p no_marks prev s 0.

(** [m.group(g)] of a match of length [n] found at the head of [s]. *)
Definition group (s : str) (n : nat) (mk : marks) (g : nat) : str :=
  match g with
  | O => take n s
  | S _ =>
      match assoc g (opens mk), assoc g (closes mk) with
      | Some a, Some b => take (b - a) (drop a s)
      | _, _ => []
      end
  end.

(** The second argument of [re.sub]: a template string, with its group
    references, or a function of the match. *)
Inductive piece := TLit (l : str) | TGroup (g : nat).

Inductive replacement :=
| Template (t : list piece)
| Callable (f : (nat -> str) -> str).

Fixpoint expand (t : list piece) (m : nat -> str) : str :=
  match t with
  | [] => []
  | TLit l :: t' => l ++ expand t' m
  | TGroup g :: t' => m g ++ expand t' m
  end.

Definition apply_repl (r : replacement) (m : nat -> str) : str :=
  match r with
  | Template t => expand t m
  | Callable f => f m
  end.

(** [count]: [0] replaces every match, [n > 0] the first [n]. *)
Definition limit_of_count (count : nat) : option nat :=
  match count with O => None | S _ => Some count end.

Definition exhausted (limit : option nat) : bool :=
  match limit with Some O => true | _ => false end.

Definition spend (limit : option nat) : option nat :=
  match limit with Some n => Some (pred n) | None => None end.

(** The loop of [re.sub]: copy the subject up to the next match, put the
    replacement in its place, go on after the match.  [skip] counts the
    characters of the current match that are still to be passed over.  A match
    of the script's patterns is never empty (see [script_match_nonempty]);
    an empty one is replaced and the scan moves one character on. *)
Fixpoint sub_from (p : pattern) (r : replacement) (limit : option nat)
    (skip : nat) (prev : option N) (s : str) : str :=
  match s with
  | [] =>
      if exhausted limit then []
      else match match_at p prev [] with
           | Some (n, mk) => apply_repl r (group [] n mk)
           | None => []
           end
  | c :: s' =>
      match skip with
      | S k => sub_from p r limit k (Some c) s'
      | O =>
          if exhausted limit then s
          else match match_at p prev s with
               | Some (S n, mk) =>
                   apply_repl r (group s (S n) mk)
                   ++ sub_from p r (spend limit) n (Some c) s'
               | Some (O, mk) =>
                   apply_repl r (group s 0 mk)
                   ++ c :: sub_from p r (spend limit) 0 (Some c) s'
               | None => c :: sub_from p r limit 0 (Some c) s'
               end
      end
  end.

Definition re_sub (p : pattern) (r : replacement) (content : str)
    (count : nat) : str :=
  sub_from p r (limit_of_count count) 0 None content.

(** [re.search]: the leftmost position at which the pattern matches, with the
    length and the marks of the match. *)
Fixpoint search_from (p : pattern) (prev : option N) (s : str) (i : nat)
  : option (nat * nat * marks) :=
  match match_at p prev s with
  | Some (n, mk) => Some (i, n, mk)
  | None =>
      match s with
      | [] => None
      | c :: s' => search_from p (Some c) s' (S i)
      end
  end.

Definition re_search (p : pattern) (s : str) : option (nat * nat * marks) :=
  search_from p None s 0.

(** ** The script *)

Definition import_pattern : pattern :=
  [Lit (text "import { Colors,")].

Definition import_template : replacement :=
  Template
    [TLit (text "import { useTheme } from '@/src/contexts/ThemeContext';"
           ++ [NL] ++ text "import {")].

Definition constants_pattern : pattern :=
  [Lit (text "from '@/src/constants';")].

(** [lambda m: m.group(0).replace(", Colors", "").replace("Colors, ", "")] *)
Definition strip_colors (m : nat -> str) : str :=
  str_replace (text "Colors, ") [] (str_replace (text ", Colors") [] (m 0)).

Definition component_pattern : pattern :=
  [Open 1; Lit (text "export default function "); PlusGreedy CWord;
   Lit (text "() {"); StarLazy (CNot 125); Close 1;
   Open 2; Lit (text "const {"); Close 2].

Definition hook_template : replacement :=
  Template
    [TGroup 1;
     TLit (text "const { colors } = useTheme();" ++ [NL] ++ text "  ");
     TGroup 2].

Definition colors_pattern : pattern :=
  [WordBoundary; Lit (text "Colors.")].

Definition colors_template : replacement :=
  Template [TLit (text "colors.")].

Definition success_message (filepath : str) : str :=
  [9989%N; 32%N] ++ text "Refactored: " ++ filepath.

Definition usage_message : str :=
  text "Usage: python refactor-screen.py <filepath>".

Definition refactor_screen (filepath : str) : io unit :=
  content ← read_file filepath;
  let content := re_sub import_pattern import_template content 0 in
  let content := re_sub constants_pattern (Callable strip_colors) content 0 in
  let content := re_sub component_pattern hook_template content 1 in
  let content := re_sub colors_pattern colors_template content 0 in
  write_file filepath content;;
  print (success_message filepath).

Definition main (argv : list str) : io unit :=
  if length argv <? 2 then
    print usage_message;;
    sys_exit 1
  else refactor_screen (nth 1 argv []).

(** The exit status of the interpreter: [0] at the end of the script, the
    code of [sys.exit], [1] for an exception nobody caught. *)
Definition exit_status (r : result unit) : Z :=
  match r with
  | Ok _ => 0
  | Raise (SystemExit code) => code
  | Raise OSError => 1
  end.

(** The four substitutions, one at a time, as the specification numbers
    them. *)
Definition import_substitution (content : str) : str :=
  re_sub import_pattern import_template content 0.

Definition import_list_cleanup (content : str) : str :=
  re_sub constants_pattern (Callable strip_colors) content 0.

Definition hook_insertion (content : str) : str :=
  re_sub component_pattern hook_template content 1.

Definition reference_substitution (content : str) : str :=
  re_sub colors_pattern colors_template content 0.

(** The part of [component_pattern] that matches the declaration itself:
    [export default function \w+\(\) \{]. *)
Definition declaration_pattern : pattern :=
  [Lit (text "export default function "); PlusGreedy CWord;
   Lit (text "() {")].

(** Whether [p] matches at a position of [pre], in the subject
    [pre ++ rest]. *)
Fixpoint matches_before (p : pattern) (prev : option N) (pre rest : str)
  : bool :=
  match pre with
  | [] => false
  | c :: pre' =>
      match match_at p prev (pre ++ rest) with
      | Some _ => true
      | None => matches_before p (Some c) pre' rest
      end
  end.

(** [re.search(p, s).start()] *)
Definition match_start (p : pattern) (s : str) : option nat :=
  match re_search p s with
  | Some (i, _, _) => Some i
  | None => None
  end.

(** Every position of [s] at which [p] matches. *)
Fixpoint positions_from (p : pattern) (prev : option N) (s : str) (i : nat)
  : list nat :=
  match match_at p prev s with Some _ => [i] | None => [] end
  ++ match s with
     | [] => []
     | c :: s' => positions_from p (Some c) s' (S i)
     end.

Definition match_positions (p : pattern) (s : str) : list nat :=
  positions_from p None s 0.

(** The marks of a match of [component_pattern] whose first group has
    length [g]. *)
Definition hook_marks (g : nat) : marks :=
  {| opens := [(2, g); (1, 0)]; closes := [(2, g + 7); (1, g)] |}.

Definition transform (content : str) : str :=
  reference_substitution
    (hook_insertion (import_list_cleanup (import_substitution content))).

(** ** Sample inputs *)

Definition sample_path : str := text "app/HomeScreen.tsx".

Definition sample_file (content : str) : file :=
  {| data := content; readable := true; writable := true |}.

(** A world with one file, [sample_path], and nothing printed yet. *)
Definition sample_world (content : str) : world :=
  {| files := {[ sample_path := sample_file content ]}; events := [] |}.

Definition empty_world : world := {| files := ∅; events := [] |}.

Definition sample_screen : str :=
  text "import React from 'react';" ++ [NL]
  ++ text "export default function HomeScreen() {" ++ [NL]
  ++ text "  return null;" ++ [NL]
  ++ text "}".

(** The lengths of the literals, computed. *)
Ltac text_lengths :=
  repeat match goal with
    | |- context [length (text ?x)] =>
        let n := eval vm_compute in (length (text x)) in
        change (length (text x)) with n
    end.

(** ** Facts about text *)

Lemma strip_prefix_app (l r : str) : strip_prefix l (l ++ r) = Some r.
Proof.
  induction l as [|a l IH]; simpl; [reflexivity|].
  now rewrite N.eqb_refl.
Qed.

Lemma strip_prefix_Some (l s r : str) :
  strip_prefix l s = Some r -> s = l ++ r.
Proof.
  revert s; induction l as [|a l IH]; intros s; simpl.
  - now intros [= ->].
  - destruct s as [|b s]; [discriminate|].
    destruct (N.eqb_spec a b) as [->|]; [|discriminate].
    intros H; now rewrite (IH _ H).
Qed.

Lemma starts_with_app (l r : str) : starts_with l (l ++ r) = true.
Proof. unfold starts_with; now rewrite strip_prefix_app. Qed.

Lemma starts_with_true (l s : str) :
  starts_with l s = true -> exists r, s = l ++ r.
Proof.
  unfold starts_with; destruct (strip_prefix l s) as [r|] eqn:E; [|discriminate].
  intros _; exists r; now apply strip_prefix_Some.
Qed.

Lemma starts_with_false (l s r : str) :
  starts_with l s = false -> s <> l ++ r.
Proof. intros H ->; now rewrite starts_with_app in H. Qed.

Lemma containsb_occurs (l s : str) : containsb l s = true <-> occurs l s.
Proof.
  split.
  - induction s as [|c s IH]; simpl; rewrite orb_true_iff.
    + intros [H|]; [|discriminate].
      destruct (starts_with_true _ _ H) as [r ->]; now exists [], r.
    + intros [H|H].
      * destruct (starts_with_true _ _ H) as [r ->]; now exists [], r.
      * destruct (IH H) as (a & b & ->); now exists (c :: a), b.
  - intros (a & b & ->); induction a as [|c a IH].
    + simpl app; destruct (l ++ b) eqn:E; simpl; rewrite <- E;
        now rewrite starts_with_app.
    + simpl; rewrite IH; apply orb_true_r.
Qed.

Lemma not_occurs_containsb (l s : str) :
  containsb l s = false -> ~ occurs l s.
Proof.
  intros H Ho; apply containsb_occurs in Ho; congruence.
Qed.

Lemma not_occurs_cons (l : str) (c : N) (s : str) :
  ~ occurs l (c :: s) -> ~ occurs l s.
Proof. intros H (a & b & ->); apply H; now exists (c :: a), b. Qed.

Lemma not_occurs_starts (l s : str) : ~ occurs l s -> starts_with l s = false.
Proof.
  intros H; destruct (starts_with l s) eqn:E; [|reflexivity].
  destruct (starts_with_true _ _ E) as [r ->]; exfalso; apply H; now exists [], r.
Qed.

Lemma last_char_cons (prev : option N) (c : N) (l : str) :
  last_char prev (c :: l) = last_char (Some c) l.
Proof.
  unfold last_char; destruct l as [|d l]; [reflexivity|].
  change (last (c :: d :: l)) with (last (d :: l)).
  destruct (last (d :: l)) eqn:E; [reflexivity|].
  now apply last_None in E.
Qed.

Lemma last_char_app (prev : option N) (a b : str) :
  last_char prev (a ++ b) = last_char (last_char prev a) b.
Proof.
  revert prev; induction a as [|c a IH]; intros prev; [reflexivity|].
  simpl app; now rewrite !last_char_cons, IH.
Qed.

Lemma unbordered_shift (l : str) (k : nat) :
  unborderedb l = true -> 0 < k < length l ->
  starts_with (drop k l) l = false.
Proof.
  unfold unborderedb; rewrite forallb_forall; intros H Hk.
  apply negb_true_iff, H, in_seq; lia.
Qed.

(** An occurrence cannot begin before another one and run into it. *)
Lemma no_straddle (l a b : str) :
  unborderedb l = true -> 0 < length a < length l ->
  starts_with l (a ++ l ++ b) = false.
Proof.
  intros Hu Ha; destruct (starts_with l (a ++ l ++ b)) eqn:E; [|reflexivity].
  destruct (starts_with_true _ _ E) as [r Hr].
  assert (Hd : l ++ b = drop (length a) l ++ r).
  { apply (f_equal (drop (length a))) in Hr.
    rewrite drop_app_length in Hr; rewrite Hr.
    rewrite drop_app_le by lia; reflexivity. }
  assert (Hp : l = drop (length a) l ++ drop (length l - length a) l).
  { apply (f_equal (take (length (drop (length a) l)))) in Hd.
    rewrite take_app_length in Hd.
    rewrite take_app_le in Hd by (rewrite length_drop; lia).
    rewrite length_drop in Hd.
    rewrite <- Hd at 1; now rewrite take_drop. }
  rewrite <- (unbordered_shift l (length a) Hu Ha).
  rewrite Hp at 2; now rewrite starts_with_app.
Qed.

(** Nor can one begin inside another one and run past its end. *)
Lemma no_overhang (l b : str) (k : nat) :
  unborderedb l = true -> 0 < k < length l ->
  starts_with l (drop k l ++ b) = false.
Proof.
  intros Hu Hk; destruct (starts_with l (drop k l ++ b)) eqn:E; [|reflexivity].
  destruct (starts_with_true _ _ E) as [r Hr].
  assert (Hp : l = drop k l ++ drop (length l - k) l).
  { apply (f_equal (take (length (drop k l)))) in Hr.
    rewrite take_app_length in Hr.
    rewrite take_app_le in Hr by (rewrite length_drop; lia).
    rewrite length_drop in Hr.
    rewrite Hr at 1; now rewrite take_drop. }
  rewrite <- (unbordered_shift l k Hu Hk).
  rewrite Hp at 2; now rewrite starts_with_app.
Qed.

Lemma starts_with_app_ge (l a x : str) :
  length l <= length a -> starts_with l (a ++ x) = starts_with l a.
Proof.
  unfold starts_with; revert a; induction l as [|d l IH]; intros a Hl.
  - reflexivity.
  - destruct a as [|c a]; simpl in Hl; [lia|]; simpl.
    destruct (N.eqb d c); [apply IH; lia | reflexivity].
Qed.

Lemma starts_with_nil_r (l : str) : l <> [] -> starts_with l [] = false.
Proof. now destruct l. Qed.

(** ** Facts about [re.sub] and [re.search], for any pattern *)

Section Sub.

Variables (p : pattern) (r : replacement).

Lemma sub_from_skip (lim : option nat) (k : nat) (s : str) (prev : option N) :
  sub_from p r lim k prev s
  = sub_from p r lim 0 (last_char prev (take k s)) (drop k s).
Proof.
  revert s prev; induction k as [|k IH]; intros s prev.
  - now rewrite take_0, drop_0.
  - destruct s as [|c s]; [reflexivity|].
    change (sub_from p r lim (S k) prev (c :: s))
      with (sub_from p r lim k (Some c) s).
    rewrite IH; simpl take; simpl drop; now rewrite last_char_cons.
Qed.

Lemma sub_from_skip_app (lim : option nat) (l t : str) (prev : option N) :
  sub_from p r lim (length l) prev (l ++ t)
  = sub_from p r lim 0 (last_char prev l) t.
Proof. now rewrite sub_from_skip, take_app_length, drop_app_length. Qed.

(** Once the count is used up the rest of the subject is copied. *)
Lemma sub_exhausted (k : nat) (prev : option N) (s : str) :
  sub_from p r (Some 0) k prev s = drop k s.
Proof.
  revert k prev; induction s as [|c s IH]; intros k prev.
  - now destruct k.
  - destruct k as [|k]; [reflexivity|]; simpl; apply IH.
Qed.

(** Where nothing matches, nothing changes. *)
Lemma sub_no_match (lim : option nat) (s : str) (prev : option N) (i : nat) :
  search_from p prev s i = None -> sub_from p r lim 0 prev s = s.
Proof.
  revert prev i; induction s as [|c s IH]; intros prev i; simpl.
  - destruct (match_at p prev []) as [[n mk]|]; [discriminate|].
    now destruct (exhausted lim).
  - destruct (match_at p prev (c :: s)) as [[n mk]|]; [discriminate|].
    intros H; destruct (exhausted lim); [reflexivity|].
    now rewrite (IH _ _ H).
Qed.

Lemma search_from_split (prev : option N) (s : str) (i j n : nat) (mk : marks) :
  search_from p prev s i = Some (j, n, mk) ->
  exists pre rest,
    s = pre ++ rest /\ j = i + length pre /\
    matches_before p prev pre rest = false /\
    match_at p (last_char prev pre) rest = Some (n, mk).
Proof.
  revert prev i; induction s as [|c s IH]; intros prev i; simpl.
  - destruct (match_at p prev []) as [[n' mk']|] eqn:E; [|discriminate].
    intros [= <- <- <-]; exists [], []; repeat split; simpl; [lia | exact E].
  - destruct (match_at p prev (c :: s)) as [[n' mk']|] eqn:E.
    + intros [= <- <- <-]; exists [], (c :: s); repeat split; simpl;
        [lia | exact E].
    + intros H; destruct (IH _ _ H) as (pre & rest & -> & -> & Hb & Hm).
      exists (c :: pre), rest; repeat split.
      * simpl; lia.
      * simpl; now rewrite E.
      * now rewrite last_char_cons.
Qed.

Lemma search_from_found (prev : option N) (pre rest : str) (i n : nat)
    (mk : marks) :
  matches_before p prev pre rest = false ->
  match_at p (last_char prev pre) rest = Some (n, mk) ->
  search_from p prev (pre ++ rest) i = Some (i + length pre, n, mk).
Proof.
  revert prev i; induction pre as [|c pre IH]; intros prev i Hb Hm.
  - simpl in *; unfold last_char in Hm; simpl in Hm.
    replace (i + 0) with i by lia.
    destruct rest; simpl; now rewrite Hm.
  - simpl in Hb; simpl app; simpl search_from.
    destruct (match_at p prev (c :: pre ++ rest)); [discriminate|].
    rewrite last_char_cons in Hm; rewrite (IH _ _ Hb Hm).
    f_equal; f_equal; f_equal; simpl; lia.
Qed.

(** With [count=1] only the leftmost match is replaced. *)
Lemma sub_first (prev : option N) (pre rest : str) (n : nat) (mk : marks) :
  matches_before p prev pre rest = false ->
  match_at p (last_char prev pre) rest = Some (n, mk) ->
  sub_from p r (Some 1) 0 prev (pre ++ rest)
  = pre ++ apply_repl r (group rest n mk) ++ drop n rest.
Proof.
  revert prev; induction pre as [|c pre IH]; intros prev Hb Hm.
  - unfold last_char in Hm; simpl in Hm; simpl app.
    destruct rest as [|c rest]; simpl; rewrite Hm.
    + now destruct n; rewrite app_nil_r.
    + destruct n as [|n]; simpl; now rewrite sub_exhausted.
  - simpl in Hb; simpl app; simpl sub_from.
    destruct (match_at p prev (c :: pre ++ rest)); [discriminate|].
    rewrite last_char_cons in Hm; now rewrite (IH _ Hb Hm).
Qed.

(** Text in which the pattern matches nowhere is copied. *)
Lemma sub_copy (lim : option nat) (t b : str) (prev : option N) :
  (forall j, j < length t ->
     match_at p (last_char prev (take j t)) (drop j t ++ b) = None) ->
  sub_from p r lim 0 prev (t ++ b)
  = t ++ sub_from p r lim 0 (last_char prev t) b.
Proof.
  revert prev; induction t as [|c t IH]; intros prev H; [reflexivity|].
  simpl app; simpl sub_from.
  generalize (H 0 ltac:(simpl; lia)).
  change (last_char prev (take 0 (c :: t))) with prev; simpl; intros ->.
  rewrite last_char_cons, IH.
  - destruct lim as [[|k]|]; simpl; [|reflexivity..].
    now rewrite sub_exhausted.
  - intros j Hj; generalize (H (S j) ltac:(simpl; lia)); simpl.
    now rewrite last_char_cons.
Qed.

(** A replacement that gives back the text it was given changes nothing. *)
Lemma sub_same (lim : option nat) :
  (forall prev s n mk, match_at p prev s = Some (n, mk) ->
     apply_repl r (group s n mk) = take n s) ->
  forall s prev, sub_from p r lim 0 prev s = s.
Proof.
  intros Hr s; remember (length s) as k eqn:Hk; revert lim s Hk.
  induction k as [k IH] using lt_wf_ind; intros lim s Hk prev.
  destruct s as [|c s]; simpl.
  - destruct (exhausted lim); [reflexivity|].
    destruct (match_at p prev []) as [[n mk]|] eqn:E; [|reflexivity].
    rewrite (Hr _ _ _ _ E); now destruct n.
  - destruct (exhausted lim); [reflexivity|].
    destruct (match_at p prev (c :: s)) as [[[|n] mk]|] eqn:E.
    + rewrite (Hr _ _ _ _ E); simpl; f_equal.
      apply (IH (length s)); [simpl in Hk; lia | reflexivity].
    + rewrite (Hr _ _ _ _ E), sub_from_skip; simpl; f_equal.
      rewrite (IH (length (drop n s))); [apply take_drop | | reflexivity].
      rewrite length_drop; simpl in Hk; lia.
    + f_equal; apply (IH (length s)); [simpl in Hk; lia | reflexivity].
Qed.

(** A match that is not empty is replaced and the scan goes on after it. *)
Lemma sub_hit (lim : option nat) (l t : str) (prev : option N) (mk : marks) :
  l <> [] -> exhausted lim = false ->
  match_at p prev (l ++ t) = Some (length l, mk) ->
  sub_from p r lim 0 prev (l ++ t)
  = apply_repl r (group (l ++ t) (length l) mk)
    ++ sub_from p r (spend lim) 0 (last_char prev l) t.
Proof.
  intros Hl He Hm; destruct l as [|c l]; [contradiction|].
  simpl app in *; simpl sub_from; rewrite He, Hm; cbn [length].
  now rewrite sub_from_skip_app, last_char_cons.
Qed.

End Sub.

(** ** Patterns that are one literal, with or without [\b] before it *)

Lemma match_lit (l : str) (prev : option N) (s : str) :
  match_at [Lit l] prev s
  = if starts_with l s then Some (length l, no_marks) else None.
Proof.
  unfold match_at, starts_with; simpl.
  now destruct (strip_prefix l s).
Qed.

Lemma match_boundary_lit (l : str) (prev : option N) (s : str) :
  is_word_opt (head l) = true ->
  match_at [WordBoundary; Lit l] prev s
  = if negb (is_word_opt prev) && starts_with l s
    then Some (length l, no_marks) else None.
Proof.
  intros Hl; unfold match_at, starts_with; simpl.
  destruct (strip_prefix l s) as [t|] eqn:E.
  - apply strip_prefix_Some in E; subst s.
    destruct l as [|c l]; [discriminate|]; simpl in *; rewrite Hl.
    now destruct (is_word_opt prev).
  - rewrite andb_false_r; now destruct (xorb _ _).
Qed.

Section GuardedLiteral.

Variables (p : pattern) (L : str) (guard : option N -> bool).
Variables (r : replacement) (R : str).

Hypothesis p_spec : forall prev s,
  match_at p prev s
  = if guard prev && starts_with L s then Some (length L, no_marks) else None.
Hypothesis L_unbordered : unborderedb L = true.
Hypothesis L_nonempty : L <> [].
Hypothesis r_const : forall m, apply_repl r m = R.

Lemma glit_last (prev : option N) : last_char prev L = last L.
Proof.
  unfold last_char; destruct (last L) eqn:E; [reflexivity|].
  now apply last_None in E.
Qed.

Lemma glit_hit (prev : option N) (t : str) :
  guard prev = true ->
  sub_from p r None 0 prev (L ++ t) = R ++ sub_from p r None 0 (last L) t.
Proof.
  intros Hg; rewrite (sub_hit p r None L t prev no_marks); auto.
  - now rewrite r_const, glit_last.
  - now rewrite p_spec, Hg, starts_with_app.
Qed.

Lemma glit_miss (prev : option N) (t : str) :
  guard prev = false ->
  sub_from p r None 0 prev (L ++ t) = L ++ sub_from p r None 0 (last L) t.
Proof.
  intros Hg; rewrite sub_copy, glit_last; [reflexivity|].
  intros [|j] Hj; rewrite p_spec.
  - change (last_char prev (take 0 L)) with prev; now rewrite Hg.
  - rewrite no_overhang, andb_false_r; auto; lia.
Qed.

Lemma glit_prev (prev1 prev2 : option N) (s : str) :
  guard prev1 = guard prev2 ->
  sub_from p r None 0 prev1 s = sub_from p r None 0 prev2 s.
Proof.
  intros Hg; destruct s as [|c s]; simpl; now rewrite !p_spec, Hg.
Qed.

(** Every occurrence is found, whatever stands before and after it. *)
Lemma glit_app (a b : str) (prev : option N) :
  sub_from p r None 0 prev (a ++ L ++ b)
  = sub_from p r None 0 prev a
    ++ (if guard (last_char prev a) then R else L)
    ++ sub_from p r None 0 (last L) b.
Proof.
  remember (length a) as n eqn:Hn; revert a prev Hn.
  induction n as [n IH] using lt_wf_ind; intros a prev Hn.
  destruct a as [|c a].
  - change (last_char prev []) with prev; simpl app at 1.
    assert (H0 : sub_from p r None 0 prev [] = []).
    { simpl; now rewrite p_spec, starts_with_nil_r, andb_false_r. }
    rewrite H0; simpl app.
    destruct (guard prev) eqn:Hg; [now apply glit_hit | now apply glit_miss].
  - destruct (guard prev && starts_with L (c :: a)) eqn:E.
    + apply andb_true_iff in E as [Hg Hs].
      destruct (starts_with_true _ _ Hs) as [a' Ha].
      rewrite Ha, <- app_assoc, !glit_hit by assumption.
      rewrite (IH (length a')), last_char_app, glit_last, <- app_assoc; auto.
      subst n; rewrite Ha, length_app.
      destruct L; [contradiction | simpl; lia].
    + assert (Hm : match_at p prev ((c :: a) ++ L ++ b) = None).
      { rewrite p_spec; destruct (guard prev); [|reflexivity]; simpl in E.
        destruct (le_lt_dec (length L) (length (c :: a))) as [Hl|Hl].
        - now rewrite starts_with_app_ge, E.
        - rewrite no_straddle; [reflexivity | assumption | simpl in Hl |- *; lia]. }
      assert (Hm' : match_at p prev (c :: a) = None) by now rewrite p_spec, E.
      simpl app in *; simpl sub_from; rewrite Hm, Hm'.
      rewrite (IH (length a)), last_char_cons; auto.
      subst n; simpl; lia.
Qed.

Lemma glit_search_absent (s : str) (prev : option N) (i : nat) :
  ~ occurs L s -> search_from p prev s i = None.
Proof.
  revert prev i; induction s as [|c s IH]; intros prev i Ho; simpl;
    rewrite p_spec, (not_occurs_starts _ _ Ho), andb_false_r; [reflexivity|].
  apply IH; eapply not_occurs_cons; eauto.
Qed.

End GuardedLiteral.

(** ** Step 1: the import of [Colors] *)

Lemma import_match (prev : option N) (s : str) :
  match_at import_pattern prev s
  = if true && starts_with (text "import { Colors,") s
    then Some (length (text "import { Colors,"), no_marks) else None.
Proof. apply match_lit. Qed.

Lemma import_template_const (m : nat -> str) :
  apply_repl import_template m
  = text "import { useTheme } from '@/src/contexts/ThemeContext';"
    ++ [NL] ++ text "import {".
Proof. cbn [apply_repl import_template expand]; apply app_nil_r. Qed.

Lemma import_substitution_app (a b : str) :
  import_substitution (a ++ text "import { Colors," ++ b)
  = import_substitution a
    ++ (text "import { useTheme } from '@/src/contexts/ThemeContext';"
        ++ [NL] ++ text "import {")
    ++ import_substitution b.
Proof.
  unfold import_substitution, re_sub; simpl limit_of_count.
  rewrite (glit_app _ _ _ _ _ import_match eq_refl ltac:(discriminate)
             import_template_const).
  do 2 f_equal.
  now apply (glit_prev _ _ (fun _ => true) _ import_match).
Qed.

Lemma import_substitution_absent (s : str) :
  ~ occurs (text "import { Colors,") s -> import_substitution s = s.
Proof.
  intros H; unfold import_substitution, re_sub.
  apply (sub_no_match _ _ _ _ _ 0).
  now apply (glit_search_absent _ _ _ import_match).
Qed.

(** ** Step 2: the import from the constants module *)

Lemma constants_match (prev : option N) (s : str) :
  match_at constants_pattern prev s
  = if true && starts_with (text "from '@/src/constants';") s
    then Some (length (text "from '@/src/constants';"), no_marks) else None.
Proof. apply match_lit. Qed.

(** The function is given the text of the match, which is the import path
    alone: there is no [Colors] in it to remove. *)
Lemma strip_colors_match (prev : option N) (s : str) (n : nat) (mk : marks) :
  match_at constants_pattern prev s = Some (n, mk) ->
  apply_repl (Callable strip_colors) (group s n mk) = take n s.
Proof.
  rewrite constants_match; simpl andb.
  destruct (starts_with _ s) eqn:E; [|discriminate]; intros [= <- <-].
  destruct (starts_with_true _ _ E) as [t ->].
  unfold apply_repl, strip_colors, group.
  change 23 with (length (text "from '@/src/constants';")).
  now rewrite take_app_length.
Qed.

Lemma import_list_cleanup_id (s : str) : import_list_cleanup s = s.
Proof.
  unfold import_list_cleanup, re_sub.
  apply sub_same, strip_colors_match.
Qed.

(** ** Step 4: the references to [Colors] *)

Lemma colors_match (prev : option N) (s : str) :
  match_at colors_pattern prev s
  = if negb (is_word_opt prev) && starts_with (text "Colors.") s
    then Some (length (text "Colors."), no_marks) else None.
Proof. now apply match_boundary_lit. Qed.

Lemma colors_template_const (m : nat -> str) :
  apply_repl colors_template m = text "colors.".
Proof. reflexivity. Qed.


Lemma reference_substitution_absent (s : str) :
  re_search colors_pattern s = None -> reference_substitution s = s.
Proof. apply sub_no_match. Qed.

(** ** Step 3: the pattern of the component *)

(** [\w+] before a character that is no word character: the whole run of
    word characters is taken, and giving some of it back never helps. *)
Lemma greedy_word_run (rest : cont) (w t : str) (prev : option N) (pos : nat) :
  (forall prev' c s' pos', is_word c = true -> rest prev' (c :: s') pos' = None) ->
  forallb is_word w = true ->
  greedy_star CWord rest prev (w ++ t) pos
  = greedy_star CWord rest (last_char prev w) t (pos + length w).
Proof.
  intros Hrest; revert prev pos; induction w as [|c w IH]; intros prev pos Hw.
  - simpl; now rewrite Nat.add_0_r.
  - simpl in Hw; apply andb_true_iff in Hw as [Hc Hw].
    simpl app; simpl greedy_star; rewrite Hc, (Hrest _ _ _ _ Hc).
    rewrite (IH _ _ Hw), last_char_cons.
    replace (S pos + length w) with (pos + length (c :: w)) by (simpl; lia).
    now destruct (greedy_star _ _ _ _ _).
Qed.

Lemma greedy_stop (rest : cont) (t : str) (prev : option N) (pos : nat) :
  is_word_opt (head t) = false ->
  greedy_star CWord rest prev t pos = rest prev t pos.
Proof. destruct t as [|c t]; simpl; [reflexivity | now intros ->]. Qed.

Lemma greedy_star_Some (k : charclass) (rest : cont) (s : str)
    (prev : option N) (pos : nat) (res : nat * marks) :
  greedy_star k rest prev s pos = Some res ->
  exists w t, s = w ++ t /\ rest (last_char prev w) t (pos + length w) = Some res.
Proof.
  revert prev pos; induction s as [|c s IH]; intros prev pos; simpl.
  - intros H; exists [], []; split; [reflexivity|].
    simpl; now rewrite Nat.add_0_r.
  - destruct (in_class k c).
    + destruct (greedy_star k rest (Some c) s (S pos)) as [res'|] eqn:E.
      * intros [= <-]; destruct (IH _ _ E) as (w & t & -> & H).
        exists (c :: w), t; split; [reflexivity|].
        rewrite last_char_cons; simpl length.
        now replace (pos + S (length w)) with (S pos + length w) by lia.
      * intros H; exists [], (c :: s); split; [reflexivity|].
        simpl; now rewrite Nat.add_0_r.
    + intros H; exists [], (c :: s); split; [reflexivity|].
      simpl; now rewrite Nat.add_0_r.
Qed.

Lemma word_split (s : str) :
  exists w t, s = w ++ t /\ forallb is_word w = true
              /\ is_word_opt (head t) = false.
Proof.
  induction s as [|c s (w & t & -> & Hw & Ht)].
  - now exists [], [].
  - destruct (is_word c) eqn:Hc.
    + exists (c :: w), t; simpl; now rewrite Hc, Hw.
    + exists [], (c :: w ++ t); simpl; now rewrite Hc.
Qed.

(** A literal that begins with a character that is no word character does
    not match before a word character. *)
Lemma lit_after_word (l : str) (p : pattern) (mk : marks) (d : N) (l' : str) :
  l = d :: l' -> is_word d = false ->
  forall prev c s pos,
    is_word c = true -> match_here (Lit l :: p) mk prev (c :: s) pos = None.
Proof.
  intros -> Hd prev c s pos Hc; simpl.
  destruct (N.eqb_spec d c) as [->|]; [congruence | reflexivity].
Qed.

Lemma tail_match (prev : option N) (s : str) (pos : nat) :
  match_here [Close 1; Open 2; Lit (text "const {"); Close 2]
    (mark_open 1 0 no_marks) prev s pos
  = if starts_with (text "const {") s
    then Some (pos + 7, hook_marks pos) else None.
Proof.
  cbn [match_here]; unfold starts_with.
  now destruct (strip_prefix (text "const {") s).
Qed.

Lemma lazy_star_eq (k : charclass) (rest : cont) (prev : option N) (s : str)
    (pos : nat) :
  lazy_star k rest prev s pos
  = match rest prev s pos with
    | Some res => Some res
    | None =>
        match s with
        | c :: s' =>
            if in_class k c then lazy_star k rest (Some c) s' (S pos) else None
        | [] => None
        end
    end.
Proof. now destruct s. Qed.

Lemma lazy_Some (s : str) (prev : option N) (pos n : nat) (mk : marks) :
  lazy_star (CNot 125)
    (match_here [Close 1; Open 2; Lit (text "const {"); Close 2]
       (mark_open 1 0 no_marks)) prev s pos = Some (n, mk) ->
  exists m post,
    s = m ++ text "const {" ++ post /\ n = pos + length m + 7
    /\ mk = hook_marks (pos + length m).
Proof.
  revert prev pos; induction s as [|c s IH]; intros prev pos;
    rewrite lazy_star_eq, tail_match.
  - destruct (starts_with _ []) eqn:E; [|discriminate].
    intros [= <- <-]; destruct (starts_with_true _ _ E) as [post ->].
    exists [], post; simpl; now rewrite !Nat.add_0_r.
  - destruct (starts_with _ (c :: s)) eqn:E.
    + intros [= <- <-]; destruct (starts_with_true _ _ E) as [post ->].
      exists [], post; simpl; now rewrite !Nat.add_0_r.
    + destruct (in_class (CNot 125) c); [|discriminate].
      intros H; destruct (IH _ _ H) as (m & post & -> & -> & ->).
      exists (c :: m), post; simpl length.
      replace (pos + S (length m)) with (S pos + length m) by lia.
      now repeat split.
Qed.

(** [const {] has no closing brace in it: it cannot begin before one and
    end after it. *)
Lemma const_not_across_brace (m post : str) :
  ~ occurs (text "const {") m ->
  starts_with (text "const {") (m ++ 125%N :: post) = false.
Proof.
  intros Ho; destruct (starts_with _ _) eqn:E; [|reflexivity]; exfalso.
  destruct (le_lt_dec (length (text "const {")) (length m)) as [Hl|Hl].
  - rewrite starts_with_app_ge in E by exact Hl.
    destruct (starts_with_true _ _ E) as [t ->]; apply Ho; now exists [], t.
  - destruct (starts_with_true _ _ E) as [t Ht]; clear E Ho.
    change (text "const {") with [99; 111; 110; 115; 116; 32; 123]%N in *.
    simpl in Hl.
    do 7 (destruct m as [|? m]; [simpl in Ht; congruence|]).
    simpl in Hl; lia.
Qed.

Lemma lazy_None (m post : str) (prev : option N) (pos : nat) :
  ~ occurs (text "const {") m ->
  lazy_star (CNot 125)
    (match_here [Close 1; Open 2; Lit (text "const {"); Close 2]
       (mark_open 1 0 no_marks)) prev (m ++ 125%N :: post) pos = None.
Proof.
  revert prev pos; induction m as [|c m IH]; intros prev pos Ho.
  - rewrite lazy_star_eq, tail_match.
    now rewrite (const_not_across_brace [] post Ho).
  - rewrite lazy_star_eq, tail_match.
    rewrite (const_not_across_brace _ post Ho); cbn [app].
    destruct (in_class (CNot 125) c); [|reflexivity].
    apply IH; eapply not_occurs_cons; eauto.
Qed.

(** The first steps of the matcher on the two patterns, written out. *)
Lemma component_unfold (prev : option N) (s : str) :
  match_at component_pattern prev s
  = match strip_prefix (text "export default function ") s with
    | Some s1 =>
        match s1 with
        | c :: s2 =>
            if is_word c then
              greedy_star CWord
                (match_here
                   [Lit (text "() {"); StarLazy (CNot 125); Close 1; Open 2;
                    Lit (text "const {"); Close 2]
                   (mark_open 1 0 no_marks))
                (Some c) s2 (S (0 + length (text "export default function ")))
            else None
        | [] => None
        end
    | None => None
    end.
Proof. reflexivity. Qed.

Lemma declaration_unfold (prev : option N) (s : str) :
  match_at declaration_pattern prev s
  = match strip_prefix (text "export default function ") s with
    | Some s1 =>
        match s1 with
        | c :: s2 =>
            if is_word c then
              greedy_star CWord (match_here [Lit (text "() {")] no_marks)
                (Some c) s2 (S (0 + length (text "export default function ")))
            else None
        | [] => None
        end
    | None => None
    end.
Proof. reflexivity. Qed.

Lemma brace_unfold (prev : option N) (t : str) (pos : nat) :
  match_here
    [Lit (text "() {"); StarLazy (CNot 125); Close 1; Open 2;
     Lit (text "const {"); Close 2]
    (mark_open 1 0 no_marks) prev t pos
  = match strip_prefix (text "() {") t with
    | Some t' =>
        lazy_star (CNot 125)
          (match_here [Close 1; Open 2; Lit (text "const {"); Close 2]
             (mark_open 1 0 no_marks))
          (last_char prev (text "() {")) t' (pos + length (text "() {"))
    | None => None
    end.
Proof. reflexivity. Qed.

Lemma paren_after_word (p : pattern) (mk : marks) :
  forall prev c s pos,
    is_word c = true ->
    match_here (Lit (text "() {") :: p) mk prev (c :: s) pos = None.
Proof. now apply (lit_after_word _ p mk 40%N (text ") {")). Qed.

(** Where there is no declaration the pattern does not match. *)
Lemma component_needs_declaration (prev : option N) (s : str) :
  match_at declaration_pattern prev s = None ->
  match_at component_pattern prev s = None.
Proof.
  rewrite component_unfold, declaration_unfold.
  destruct (strip_prefix _ s) as [[|c s2]|]; try reflexivity.
  destruct (is_word c); [|reflexivity].
  destruct (word_split s2) as (w & t & -> & Hw & Ht).
  rewrite !greedy_word_run, !greedy_stop; auto using paren_after_word.
  rewrite brace_unfold; cbn [match_here].
  now destruct (strip_prefix (text "() {") t).
Qed.

(** A match is a first group that ends just before [const {], and
    [const {] as the second group. *)
Lemma component_match_shape (prev : option N) (s : str) (n : nat) (mk : marks) :
  match_at component_pattern prev s = Some (n, mk) ->
  exists g1 post,
    s = g1 ++ text "const {" ++ post /\ n = length g1 + 7
    /\ mk = hook_marks (length g1).
Proof.
  rewrite component_unfold.
  destruct (strip_prefix _ s) as [[|c s2]|] eqn:E; try discriminate.
  apply strip_prefix_Some in E; subst s.
  destruct (is_word c); [|discriminate].
  intros H; apply greedy_star_Some in H as (w & t & -> & H).
  rewrite brace_unfold in H.
  destruct (strip_prefix _ t) as [t'|] eqn:E; [|discriminate].
  apply strip_prefix_Some in E; subst t.
  apply lazy_Some in H as (m & post & -> & -> & ->).
  exists (text "export default function " ++ c :: w ++ text "() {" ++ m), post.
  repeat split.
  - now rewrite <- !app_assoc, <- app_comm_cons, <- !app_assoc.
  - rewrite !length_app, length_cons, !length_app; text_lengths; lia.
  - f_equal; rewrite !length_app, length_cons, !length_app; text_lengths; lia.
Qed.

Lemma group_hook (g1 post : str) :
  let s := g1 ++ text "const {" ++ post in
  group s (length g1 + 7) (hook_marks (length g1)) 1 = g1
  /\ group s (length g1 + 7) (hook_marks (length g1)) 2 = text "const {".
Proof.
  unfold group, hook_marks; cbn [assoc opens closes Nat.eqb]; split.
  - now rewrite Nat.sub_0_r, drop_0, take_app_length.
  - rewrite drop_app_length.
    replace (length g1 + 7 - length g1) with (length (text "const {"))
      by (change (length (text "const {")) with 7; lia).
    apply take_app_length.
Qed.

(** A closing brace before the first [const {] of the body: no match. *)
Lemma component_fails_on_brace (prev : option N) (ident mid post : str) :
  forallb is_word ident = true -> ident <> [] ->
  ~ occurs (text "const {") mid ->
  match_at component_pattern prev
    (text "export default function " ++ ident ++ text "() {"
     ++ mid ++ [125%N] ++ post) = None.
Proof.
  intros Hw Hi Hm; rewrite component_unfold, strip_prefix_app.
  destruct ident as [|c w]; [contradiction|].
  simpl in Hw; apply andb_true_iff in Hw as [Hc Hw].
  cbn [app]; rewrite Hc.
  rewrite greedy_word_run, greedy_stop, brace_unfold, strip_prefix_app;
    auto using paren_after_word.
  now apply lazy_None.
Qed.

Lemma hook_template_expand (m : nat -> str) :
  apply_repl hook_template m
  = m 1 ++ (text "const { colors } = useTheme();" ++ [NL] ++ text "  ")
    ++ m 2.
Proof. cbn [apply_repl hook_template expand]; now rewrite app_nil_r. Qed.

Lemma hook_insertion_no_match (s : str) :
  re_search component_pattern s = None -> hook_insertion s = s.
Proof. apply sub_no_match. Qed.

(** The leftmost match is the one that is replaced. *)
Lemma hook_insertion_leftmost (pre rest : str) (n : nat) (mk : marks) :
  match_start component_pattern (pre ++ rest) = Some (length pre) ->
  match_at component_pattern (last_char None pre) rest = Some (n, mk) ->
  hook_insertion (pre ++ rest)
  = pre ++ apply_repl hook_template (group rest n mk) ++ drop n rest.
Proof.
  unfold match_start, re_search; intros Hs Hm.
  destruct (search_from _ _ _ _) as [[[j n'] mk']|] eqn:E; [|discriminate].
  injection Hs as ->.
  apply search_from_split in E as (pre' & rest' & Heq & Hj & Hb & _).
  apply app_inj_1 in Heq as [<- <-]; [|simpl in Hj; lia].
  now apply sub_first.
Qed.

Lemma hook_insertion_shape (s : str) :
  hook_insertion s = s
  \/ exists pre g post,
       s = pre ++ g ++ text "const {" ++ post
       /\ hook_insertion s
          = pre ++ g
            ++ (text "const { colors } = useTheme();" ++ [NL] ++ text "  ")
            ++ text "const {" ++ post.
Proof.
  destruct (re_search component_pattern s) as [[[j n] mk]|] eqn:E;
    [right | left; now apply hook_insertion_no_match].
  apply search_from_split in E as (pre & rest & -> & _ & Hb & Hm).
  destruct (component_match_shape _ _ _ _ Hm) as (g & post & -> & -> & ->).
  exists pre, g, post; split; [reflexivity|].
  unfold hook_insertion, re_sub; cbn [limit_of_count].
  rewrite (sub_first _ _ _ _ _ _ _ Hb Hm), hook_template_expand.
  destruct (group_hook g post) as [-> ->].
  rewrite (app_assoc g (text "const {") post), drop_app_length'
    by (rewrite length_app; text_lengths; lia).
  now rewrite <- !app_assoc.
Qed.

Lemma screen_match (prev : option N) (post : str) :
  match_at component_pattern prev
    ((text "export default function Screen() {" ++ [NL]
      ++ text "  const { navigation } = useNavigation();") ++ post)
  = Some (44, hook_marks 37).
Proof. reflexivity. Qed.

Lemma positions_from_in (p : pattern) (prev : option N) (pre rest : str)
    (i : nat) :
  match_at p (last_char prev pre) rest <> None ->
  i + length pre ∈ positions_from p prev (pre ++ rest) i.
Proof.
  revert prev i; induction pre as [|c pre IH]; intros prev i Hm.
  - change (last_char prev []) with prev in Hm.
    rewrite Nat.add_0_r; cbn [app].
    destruct rest; simpl; apply elem_of_app; left;
      (destruct (match_at p prev _); [|contradiction]);
      apply elem_of_cons; now left.
  - rewrite last_char_cons in Hm; simpl; apply elem_of_app; right.
    replace (i + S (length pre)) with (S i + length pre) by lia.
    now apply IH.
Qed.

(** No pattern of the script matches the empty text. *)
Lemma script_match_nonempty (p : pattern) (prev : option N) (s : str)
    (n : nat) (mk : marks) :
  p ∈ [import_pattern; constants_pattern; component_pattern; colors_pattern] ->
  match_at p prev s = Some (n, mk) -> 0 < n.
Proof.
  rewrite !elem_of_cons, elem_of_nil; intros [->|[->|[->|[->|[]]]]].
  - rewrite import_match; destruct (_ && _); [|discriminate].
    intros [= <- _]; text_lengths; lia.
  - rewrite constants_match; destruct (_ && _); [|discriminate].
    intros [= <- _]; text_lengths; lia.
  - intros H; apply component_match_shape in H as (g & post & _ & -> & _); lia.
  - rewrite colors_match; destruct (_ && _); [|discriminate].
    intros [= <- _]; text_lengths; lia.
Qed.

(** ** The run of the script *)

Lemma refactor_screen_ok (path : str) (w : world) (f : file) :
  files w !! path = Some f -> readable f = true -> writable f = true ->
  refactor_screen path w
  = (Ok tt,
     {| files := <[path := {| data := transform (data f);
                              readable := readable f;
                              writable := writable f |}]> (files w);
        events := ((events w ++ [EvOpen path ReadMode])
                   ++ [EvOpen path WriteMode])
                  ++ [EvPrint (success_message path)] |}).
Proof.
  intros Hf Hr Hw.
  unfold refactor_screen, mbind, io_bind, read_file, write_file, print, log.
  cbn [files events]; rewrite Hf, Hr.
  cbn [files events]; rewrite Hf, Hw.
  cbn [files events]; now rewrite ?Hr, ?Hw.
Qed.

Lemma refactor_screen_fails (path : str) (w : world) :
  files w !! path = None
  \/ (exists f, files w !! path = Some f
                /\ (readable f = false \/ writable f = false)) ->
  exists evs,
    refactor_screen path w
    = (Raise OSError, {| files := files w; events := events w ++ evs |})
    /\ Forall (fun e => forall line, e <> EvPrint line) evs.
Proof.
  unfold refactor_screen, mbind, io_bind, read_file, write_file, print, log.
  cbn [files events].
  intros [Hf | (f & Hf & Hp)]; rewrite Hf.
  - exists [EvOpen path ReadMode]; split; [reflexivity|].
    repeat constructor; discriminate.
  - destruct (readable f) eqn:Hr.
    + destruct Hp as [Hp | Hp]; [discriminate|].
      cbn [files events]; rewrite Hf, Hp.
      exists [EvOpen path ReadMode; EvOpen path WriteMode].
      rewrite <- app_assoc; split; [reflexivity|].
      repeat constructor; discriminate.
    + exists [EvOpen path ReadMode]; split; [reflexivity|].
      repeat constructor; discriminate.
Qed.

(** ** The claims *)

(** C2.  Step 1 puts the import of [useTheme] and a new [import {] in the
    place of every [import { Colors,], whatever stands before and after it;
    in [import { Colors, useState } from 'react';] the import of [useState]
    stays. *)
Theorem import_substitution_every_occurrence :
  (forall a b,
     import_substitution (a ++ text "import { Colors," ++ b)
     = import_substitution a
       ++ (text "import { useTheme } from '@/src/contexts/ThemeContext';"
           ++ [NL] ++ text "import {")
       ++ import_substitution b)
  /\ (forall a b,
        import_substitution
          (a ++ text "import { Colors, useState } from 'react';" ++ b)
        = import_substitution a
          ++ (text "import { useTheme } from '@/src/contexts/ThemeContext';"
              ++ [NL] ++ text "import { useState } from 'react';")
          ++ import_substitution b).
Proof.
  split; [apply import_substitution_app|]; intros a b.
  change (text "import { Colors, useState } from 'react';")
    with (text "import { Colors," ++ text " useState } from 'react';").
  rewrite <- (app_assoc (text "import { Colors,")), import_substitution_app.
  f_equal.
  assert (Hb : import_substitution (text " useState } from 'react';" ++ b)
               = text " useState } from 'react';" ++ import_substitution b).
  { unfold import_substitution, re_sub; rewrite sub_copy.
    - f_equal; now apply (glit_prev _ _ (fun _ => true) _ import_match).
    - intros j Hj; rewrite import_match.
      do 25 (destruct j as [|j]; [reflexivity|]).
      exfalso; revert Hj; text_lengths; lia. }
  rewrite Hb, <- !app_assoc; reflexivity.
Qed.


(** C1.  Step 2 is given the import path alone, so it gives back every text
    as it was: the [Colors] of an import list that does not begin with it is
    still there after the step, and after the whole transformation. *)
Theorem import_list_cleanup_keeps_Colors :
  import_list_cleanup
    (text "import { Fonts, Colors } from '@/src/constants';")
  = text "import { Fonts, Colors } from '@/src/constants';"
  /\ transform (text "import { Fonts, Colors } from '@/src/constants';")
     = text "import { Fonts, Colors } from '@/src/constants';".
Proof. split; vm_compute; reflexivity. Qed.

(** C3, as amended.  When the leftmost match of the pattern begins at
    [export default function Screen() {] followed on the next line by
    [  const { navigation } = useNavigation();], step 3 puts the line
    [  const { colors } = useTheme();] just before the [const { navigation }]
    line; it inserts that text once or not at all; where the pattern matches
    nowhere the content is unchanged. *)
Theorem hook_insertion_first_match :
  (forall pre post,
     match_start component_pattern
       (pre ++ (text "export default function Screen() {" ++ [NL]
                ++ text "  const { navigation } = useNavigation();") ++ post)
     = Some (length pre) ->
     hook_insertion
       (pre ++ (text "export default function Screen() {" ++ [NL]
                ++ text "  const { navigation } = useNavigation();") ++ post)
     = pre ++ (text "export default function Screen() {" ++ [NL]
               ++ text "  const { colors } = useTheme();" ++ [NL]
               ++ text "  const { navigation } = useNavigation();") ++ post)
  /\ (forall s,
        hook_insertion s = s
        \/ exists pre g post,
             s = pre ++ g ++ text "const {" ++ post
             /\ hook_insertion s
                = pre ++ g
                  ++ (text "const { colors } = useTheme();" ++ [NL]
                      ++ text "  ")
                  ++ text "const {" ++ post)
  /\ (forall s,
        re_search component_pattern s = None -> hook_insertion s = s).
Proof.
  split; [|split; [apply hook_insertion_shape | apply hook_insertion_no_match]].
  intros pre post Hs.
  rewrite (hook_insertion_leftmost pre _ 44 (hook_marks 37) Hs)
    by apply screen_match.
  f_equal; vm_compute; reflexivity.
Qed.

(** C8.  Where the only declaration [export default function <identifier>() {]
    of the file has a closing brace after its opening brace and before any
    [const {], the pattern of step 3 matches nowhere and the step gives the
    content back unchanged. *)
Theorem hook_insertion_blocked_by_brace (pre ident mid post : str) :
  let s := pre ++ text "export default function " ++ ident ++ text "() {"
           ++ mid ++ [125%N] ++ post in
  forallb is_word ident = true -> ident <> [] ->
  ~ occurs (text "const {") mid ->
  match_positions declaration_pattern s = [length pre] ->
  re_search component_pattern s = None /\ hook_insertion s = s.
Proof.
  intros s Hw Hi Hm Hp.
  assert (Hs : re_search component_pattern s = None).
  { destruct (re_search component_pattern s) as [[[j n] mk]|] eqn:E;
      [exfalso | reflexivity].
    apply search_from_split in E as (pre' & rest' & Heq & _ & _ & Hc).
    assert (Hin : 0 + length pre' ∈ match_positions declaration_pattern s).
    { unfold match_positions; rewrite Heq; apply positions_from_in.
      intros Hd; apply component_needs_declaration in Hd; congruence. }
    rewrite Hp in Hin; apply list_elem_of_singleton in Hin.
    apply app_inj_1 in Heq as [<- <-]; [|simpl in Hin; lia].
    rewrite component_fails_on_brace in Hc; auto; discriminate. }
  split; [exact Hs | now apply hook_insertion_no_match].
Qed.


(** C6.  Without a path argument the script prints the usage message, opens
    no file and ends with exit status 1. *)
Theorem no_argument_usage (argv : list str) (w : world) :
  length argv < 2 ->
  main argv w
  = (Raise (SystemExit 1),
     {| files := files w; events := events w ++ [EvPrint usage_message] |})
  /\ exit_status (main argv w).1 = 1%Z.
Proof.
  intros H; unfold main.
  destruct (Nat.ltb_spec (length argv) 2) as [_|]; [|lia].
  now split.
Qed.

(** C7.  With the path of a file that does not exist, or that cannot be read
    or written, the script ends with the I/O error, leaves the files as they
    were and prints nothing. *)
Theorem missing_file_raises (prog path : str) (w : world) :
  files w !! path = None
  \/ (exists f, files w !! path = Some f
                /\ (readable f = false \/ writable f = false)) ->
  exists evs,
    main [prog; path] w
    = (Raise OSError, {| files := files w; events := events w ++ evs |})
    /\ (EvPrint (success_message path) ∉ evs)
    /\ exit_status (main [prog; path] w).1 = 1%Z.
Proof.
  intros H; destruct (refactor_screen_fails path w H) as (evs & Hrun & Hev).
  exists evs; change (main [prog; path] w) with (refactor_screen path w).
  rewrite Hrun; repeat split.
  intros Hin; rewrite Forall_forall in Hev; exact (Hev _ Hin _ eq_refl).
Qed.

(** C9.  Two runs on files of the same content write the same content back,
    and each prints the line made from its path alone; nothing else of the
    two worlds has a part in it. *)
Theorem refactor_screen_deterministic (path1 path2 : str) (w1 w2 : world)
    (f1 f2 : file) :
  files w1 !! path1 = Some f1 -> files w2 !! path2 = Some f2 ->
  readable f1 = true -> writable f1 = true ->
  readable f2 = true -> writable f2 = true ->
  data f1 = data f2 ->
  exists w1' w2' content,
    refactor_screen path1 w1 = (Ok tt, w1')
    /\ refactor_screen path2 w2 = (Ok tt, w2')
    /\ data <$> files w1' !! path1 = Some content
    /\ data <$> files w2' !! path2 = Some content
    /\ events w1'
       = events w1 ++ [EvOpen path1 ReadMode; EvOpen path1 WriteMode;
                       EvPrint (success_message path1)]
    /\ events w2'
       = events w2 ++ [EvOpen path2 ReadMode; EvOpen path2 WriteMode;
                       EvPrint (success_message path2)].
Proof.
  intros H1 H2 Hr1 Hw1 Hr2 Hw2 Hd.
  do 2 eexists; exists (transform (data f1)).
  split; [apply (refactor_screen_ok _ _ f1); assumption|].
  split; [apply (refactor_screen_ok _ _ f2); assumption|].
  cbn [files events]; rewrite !lookup_insert_eq, <- !app_assoc, Hd.
  now repeat split.
Qed.

(** No occurrence of [Colors.] after a boundary: the pattern of step 4
    matches nowhere. *)
Lemma colors_search_none (s : str) (prev : option N) (i : nat) :
  (forall a b, s = a ++ text "Colors." ++ b ->
               is_word_opt (last_char prev a) = true) ->
  search_from colors_pattern prev s i = None.
Proof.
  revert prev i; induction s as [|c s IH]; intros prev i H; simpl;
    rewrite colors_match.
  - now rewrite starts_with_nil_r, andb_false_r.
  - destruct (starts_with _ (c :: s)) eqn:E.
    + destruct (starts_with_true _ _ E) as [b Hb].
      generalize (H [] b Hb); change (last_char prev []) with prev.
      intros ->; cbn [negb andb].
      apply IH; intros a b' ->; rewrite <- (last_char_cons prev); now apply (H (c :: a) b').
    + rewrite andb_false_r.
      apply IH; intros a b' ->; rewrite <- (last_char_cons prev); now apply (H (c :: a) b').
Qed.

(** C10.  A content with no [import { Colors,], no [from '@/src/constants';],
    no match of the pattern of step 3 and no [Colors.] after a word boundary
    is written back as it was read; the file is opened for writing all the
    same. *)
Theorem unchanged_without_matches (path : str) (w : world) (f : file) :
  files w !! path = Some f -> readable f = true -> writable f = true ->
  ~ occurs (text "import { Colors,") (data f) ->
  ~ occurs (text "from '@/src/constants';") (data f) ->
  re_search component_pattern (data f) = None ->
  (forall a b, data f = a ++ text "Colors." ++ b ->
               is_word_opt (last a) = true) ->
  exists w',
    refactor_screen path w = (Ok tt, w')
    /\ data <$> files w' !! path = Some (data f)
    /\ (EvOpen path WriteMode ∈ events w').
Proof.
  intros Hf Hr Hw H1 _ H3 H4.
  eexists; split; [apply (refactor_screen_ok _ _ f); assumption|].
  cbn [files events]; rewrite lookup_insert_eq; split.
  - cbn [fmap option_fmap option_map data]; f_equal; unfold transform.
    rewrite (import_substitution_absent _ H1), import_list_cleanup_id.
    rewrite (hook_insertion_no_match _ H3).
    apply reference_substitution_absent, colors_search_none.
    intros a b Hab; unfold last_char.
    generalize (H4 a b Hab); now destruct (last a).
  - rewrite !elem_of_app, !list_elem_of_singleton; auto.
Qed.

(** ** More about step 4 *)

Lemma last_char_None (l : str) : last_char None l = last l.
Proof. unfold last_char; now destruct (last l). Qed.

Lemma colors_sub_nil (prev : option N) :
  sub_from colors_pattern colors_template None 0 prev [] = [].
Proof.
  cbn [sub_from exhausted]; rewrite colors_match.
  now rewrite starts_with_nil_r, andb_false_r.
Qed.

Lemma colors_sub_miss (prev : option N) (c : N) (s : str) :
  negb (is_word_opt prev) && starts_with (text "Colors.") (c :: s) = false ->
  sub_from colors_pattern colors_template None 0 prev (c :: s)
  = c :: sub_from colors_pattern colors_template None 0 (Some c) s.
Proof. intros H; cbn [sub_from exhausted]; now rewrite colors_match, H. Qed.

Lemma colors_sub_hit (prev : option N) (t : str) :
  is_word_opt prev = false ->
  sub_from colors_pattern colors_template None 0 prev (text "Colors." ++ t)
  = text "colors."
    ++ sub_from colors_pattern colors_template None 0 (Some 46%N) t.
Proof.
  intros H.
  apply (glit_hit colors_pattern (text "Colors.")
           (fun prev => negb (is_word_opt prev)) colors_template
           (text "colors.")); auto using colors_match, colors_template_const.
  now rewrite H.
Qed.

(** How one step of the scan goes, as a choice of two. *)
Lemma colors_sub_cases (prev : option N) (c : N) (s : str) :
  (is_word_opt prev = false
   /\ exists t, c :: s = text "Colors." ++ t
        /\ sub_from colors_pattern colors_template None 0 prev (c :: s)
           = text "colors."
             ++ sub_from colors_pattern colors_template None 0 (Some 46%N) t)
  \/ (negb (is_word_opt prev) && starts_with (text "Colors.") (c :: s) = false
      /\ sub_from colors_pattern colors_template None 0 prev (c :: s)
         = c :: sub_from colors_pattern colors_template None 0 (Some c) s).
Proof.
  destruct (negb (is_word_opt prev) && starts_with (text "Colors.") (c :: s))
    eqn:E; [left | right; split; [reflexivity | now apply colors_sub_miss]].
  apply andb_true_iff in E as [Hg Hs]; apply negb_true_iff in Hg.
  destruct (starts_with_true _ _ Hs) as [t Ht].
  split; [exact Hg|]; exists t; split; [exact Ht|].
  rewrite Ht; now apply colors_sub_hit.
Qed.

(** What step 4 does at each position: a capital [C] becomes [c] where
    [Colors.] begins after a boundary, and nothing else changes. *)
Lemma colors_sub_pointwise (s : str) (prev : option N) (i : nat) :
  length (sub_from colors_pattern colors_template None 0 prev s) = length s
  /\ sub_from colors_pattern colors_template None 0 prev s !! i
     = if negb (is_word_opt (last_char prev (take i s)))
          && starts_with (text "Colors.") (drop i s)
       then Some 99%N else s !! i.
Proof.
  remember (length s) as n eqn:Hn; revert s prev i Hn.
  induction n as [n IH] using lt_wf_ind; intros s prev i Hn.
  destruct s as [|c s].
  - rewrite colors_sub_nil, take_nil, drop_nil, starts_with_nil_r, andb_false_r
      by discriminate.
    now split.
  - destruct (colors_sub_cases prev c s) as [(Hg & t & Ht & ->) | (Hm & ->)].
    + rewrite Ht in *; clear Ht.
      assert (Hlt : length t < n)
        by (subst n; rewrite length_app; text_lengths; lia).
      split; [rewrite !length_app, (proj1 (IH _ Hlt t (Some 46%N) 0 eq_refl));
              now text_lengths|].
      destruct (le_lt_dec 7 i) as [Hi|Hi].
      * apply Nat.le_exists_sub in Hi as (k & -> & _).
        rewrite Nat.add_comm.
        change 7 with (length (text "colors.")) at 1.
        rewrite lookup_app_r, Nat.add_comm, Nat.add_sub by lia.
        rewrite (proj2 (IH _ Hlt t (Some 46%N) k eq_refl)).
        change 7 with (length (text "Colors.")).
        rewrite take_app_add, drop_app_add, last_char_app, lookup_app_r by lia.
        rewrite Nat.add_comm, Nat.add_sub.
        reflexivity.
      * rewrite lookup_app_l by (text_lengths; lia).
        rewrite take_app_le, drop_app_le, lookup_app_l by (text_lengths; lia).
        destruct i as [|i].
        -- change (last_char prev (take 0 (text "Colors."))) with prev.
           rewrite Hg, drop_0, starts_with_app; reflexivity.
        -- rewrite no_overhang, andb_false_r by (auto; text_lengths; lia).
           do 6 (destruct i as [|i]; [reflexivity|]); lia.
    + assert (Hlt : length s < n) by (subst n; simpl; lia).
      destruct (IH _ Hlt s (Some c) (pred i) eq_refl) as [IHl IHp].
      split; [simpl; now rewrite IHl|].
      destruct i as [|i].
      * change (last_char prev (take 0 (c :: s))) with prev.
        now rewrite drop_0, Hm.
      * simpl in IHp; simpl take; simpl drop; simpl lookup.
        now rewrite last_char_cons, IHp.
Qed.

(** The output begins with a literal without [c] only where the input
    did. *)
Lemma colors_sub_starts (l s : str) (prev : option N) :
  forallb (fun d => negb (N.eqb d 99)) l = true ->
  starts_with l (sub_from colors_pattern colors_template None 0 prev s) = true ->
  starts_with l s = true.
Proof.
  revert s prev; induction l as [|d l IH]; intros s prev Hl; [reflexivity|].
  simpl in Hl; apply andb_true_iff in Hl as [Hd Hl].
  destruct s as [|c s]; [now rewrite colors_sub_nil|].
  destruct (colors_sub_cases prev c s) as [(_ & t & _ & ->) | (_ & ->)].
  - change (text "colors.") with (99%N :: text "olors.").
    unfold starts_with; simpl; apply negb_true_iff in Hd; now rewrite Hd.
  - unfold starts_with; simpl; destruct (N.eqb d c); [|discriminate].
    apply IH, Hl.
Qed.

Lemma search_copy (p : pattern) (l rest : str) (prev : option N) (i : nat) :
  (forall j, j < length l ->
     match_at p (last_char prev (take j l)) (drop j l ++ rest) = None) ->
  search_from p prev (l ++ rest) i
  = search_from p (last_char prev l) rest (i + length l).
Proof.
  revert prev i; induction l as [|c l IH]; intros prev i H.
  - simpl; now rewrite Nat.add_0_r.
  - simpl app; simpl search_from.
    generalize (H 0 ltac:(simpl; lia)).
    change (last_char prev (take 0 (c :: l))) with prev; simpl; intros ->.
    rewrite IH, last_char_cons; [f_equal; simpl; lia|].
    intros j Hj; generalize (H (S j) ltac:(simpl; lia)); simpl.
    now rewrite last_char_cons.
Qed.

(** After step 4 the pattern of step 4 matches nowhere. *)
Lemma colors_search_after (s : str) (prev prev' : option N) (i : nat) :
  is_word_opt prev' = is_word_opt prev ->
  search_from colors_pattern prev'
    (sub_from colors_pattern colors_template None 0 prev s) i = None.
Proof.
  remember (length s) as n eqn:Hn; revert s prev prev' i Hn.
  induction n as [n IH] using lt_wf_ind; intros s prev prev' i Hn Hp.
  destruct s as [|c s].
  - rewrite colors_sub_nil; simpl; rewrite colors_match.
    now rewrite starts_with_nil_r, andb_false_r.
  - destruct (colors_sub_cases prev c s) as [(Hg & t & Ht & ->) | (Hm & ->)].
    + rewrite search_copy.
      * apply (IH (length t)); [|reflexivity..].
        subst n; rewrite Ht, length_app; text_lengths; lia.
      * intros j Hj; rewrite colors_match.
        do 7 (destruct j as [|j];
              [match goal with
               | |- context [starts_with ?a ?b] =>
                   change (starts_with a b) with false
               end; now rewrite andb_false_r|]).
        revert Hj; text_lengths; lia.
    + simpl search_from; rewrite colors_match.
      assert (E : negb (is_word_opt prev')
                  && starts_with (text "Colors.")
                       (c :: sub_from colors_pattern colors_template None 0
                               (Some c) s) = false).
      { rewrite Hp; destruct (is_word_opt prev) eqn:Hw; [reflexivity|].
        cbn [negb andb] in Hm |- *.
        destruct (starts_with (text "Colors.")
                    (c :: sub_from colors_pattern colors_template None 0
                            (Some c) s)) eqn:E; [|reflexivity].
        rewrite <- (colors_sub_miss prev c s) in E by (now rewrite Hw).
        apply colors_sub_starts in E; [congruence | reflexivity]. }
      rewrite E; apply (IH (length s)); [subst n; simpl; lia | reflexivity..].
Qed.

(** ** More about step 3 *)

Lemma not_occurs_drop (l a : str) (j : nat) :
  ~ occurs l a -> ~ occurs l (drop j a).
Proof.
  intros H (x & y & Hxy); apply H; exists (take j a ++ x), y.
  now rewrite <- app_assoc, <- Hxy, take_drop.
Qed.

(** Text without an occurrence of [l], put before one, begins with none. *)
Lemma not_occurs_before (l a b : str) :
  unborderedb l = true -> ~ occurs l a -> a <> [] ->
  starts_with l (a ++ l ++ b) = false.
Proof.
  intros Hu Ho Ha.
  destruct (le_lt_dec (length l) (length a)) as [Hl|Hl].
  - rewrite starts_with_app_ge by exact Hl; now apply not_occurs_starts.
  - apply no_straddle; [exact Hu|]; destruct a; [contradiction | simpl in *; lia].
Qed.

Lemma lazy_success (m post : str) (prev : option N) (pos : nat) :
  forallb (fun c => negb (N.eqb c 125)) m = true ->
  ~ occurs (text "const {") m ->
  lazy_star (CNot 125)
    (match_here [Close 1; Open 2; Lit (text "const {"); Close 2]
       (mark_open 1 0 no_marks)) prev (m ++ text "const {" ++ post) pos
  = Some (pos + length m + 7, hook_marks (pos + length m)).
Proof.
  revert prev pos; induction m as [|c m IH]; intros prev pos Hb Ho;
    rewrite lazy_star_eq, tail_match.
  - rewrite app_nil_l, starts_with_app; simpl; now rewrite !Nat.add_0_r.
  - rewrite not_occurs_before by (auto; discriminate).
    simpl in Hb; apply andb_true_iff in Hb as [Hc Hb].
    cbn [app in_class]; rewrite Hc, IH; [|exact Hb|eapply not_occurs_cons; eauto].
    simpl length; do 2 f_equal; [|f_equal]; lia.
Qed.

(** A declaration, a body without closing brace up to its first [const {]:
    the pattern matches, and its first group ends before that [const {]. *)
Lemma component_match_success (prev : option N) (ident body post : str) :
  forallb is_word ident = true -> ident <> [] ->
  forallb (fun c => negb (N.eqb c 125)) body = true ->
  ~ occurs (text "const {") body ->
  match_at component_pattern prev
    ((text "export default function " ++ ident ++ text "() {" ++ body)
     ++ text "const {" ++ post)
  = Some (length (text "export default function " ++ ident ++ text "() {"
                  ++ body) + 7,
          hook_marks (length (text "export default function " ++ ident
                              ++ text "() {" ++ body))).
Proof.
  intros Hw Hi Hb Ho.
  rewrite <- !app_assoc, component_unfold, strip_prefix_app.
  destruct ident as [|c w]; [contradiction|].
  simpl in Hw; apply andb_true_iff in Hw as [Hc Hw].
  cbn [app]; rewrite Hc.
  rewrite greedy_word_run, greedy_stop, brace_unfold, strip_prefix_app;
    auto using paren_after_word.
  rewrite lazy_success by assumption.
  rewrite !length_app, length_cons, !length_app; text_lengths.
  do 2 f_equal; [|f_equal]; lia.
Qed.

(** Before the first [export default function ] there is no match. *)
Lemma component_not_before_keyword (pre rest : str) (prev : option N) (j : nat) :
  ~ occurs (text "export default function ") pre -> j < length pre ->
  match_at component_pattern prev
    (drop j pre ++ text "export default function " ++ rest) = None.
Proof.
  intros Ho Hj; rewrite component_unfold.
  assert (E : starts_with (text "export default function ")
                (drop j pre ++ text "export default function " ++ rest)
              = false).
  { apply not_occurs_before; [reflexivity | now apply not_occurs_drop |].
    intros E; apply (f_equal length) in E; rewrite length_drop in E.
    simpl in E; lia. }
  unfold starts_with in E.
  now destruct (strip_prefix _ _).
Qed.

Lemma hook_insertion_declaration (pre ident body post : str) :
  ~ occurs (text "export default function ") pre ->
  forallb is_word ident = true -> ident <> [] ->
  forallb (fun c => negb (N.eqb c 125)) body = true ->
  ~ occurs (text "const {") body ->
  hook_insertion
    (pre ++ (text "export default function " ++ ident ++ text "() {" ++ body)
     ++ text "const {" ++ post)
  = pre ++ (text "export default function " ++ ident ++ text "() {" ++ body)
    ++ (text "const { colors } = useTheme();" ++ [NL] ++ text "  ")
    ++ text "const {" ++ post.
Proof.
  intros Hp Hw Hi Hb Hc; unfold hook_insertion, re_sub; cbn [limit_of_count].
  rewrite sub_copy.
  - f_equal.
    rewrite (sub_first _ _ _ [] _ _ _ eq_refl
               (component_match_success _ ident body post Hw Hi Hb Hc)).
    rewrite hook_template_expand; cbn [app].
    destruct (group_hook (text "export default function " ++ ident
                          ++ text "() {" ++ body) post) as [-> ->].
    rewrite (app_assoc _ (text "const {") post), drop_app_length'
      by (rewrite !length_app; text_lengths; lia).
    now rewrite <- !app_assoc.
  - intros j Hj; rewrite <- !app_assoc.
    now apply component_not_before_keyword.
Qed.

(** What step 3 gives where the pattern matches. *)
Lemma hook_insertion_found (s : str) (j n : nat) (mk : marks) :
  re_search component_pattern s = Some (j, n, mk) ->
  exists pre g post,
    s = pre ++ g ++ text "const {" ++ post
    /\ hook_insertion s
       = pre ++ g
         ++ (text "const { colors } = useTheme();" ++ [NL] ++ text "  ")
         ++ text "const {" ++ post.
Proof.
  intros E.
  apply search_from_split in E as (pre & rest & -> & _ & Hb & Hm).
  destruct (component_match_shape _ _ _ _ Hm) as (g & post & -> & -> & ->).
  exists pre, g, post; split; [reflexivity|].
  unfold hook_insertion, re_sub; cbn [limit_of_count].
  rewrite (sub_first _ _ _ _ _ _ _ Hb Hm), hook_template_expand.
  destruct (group_hook g post) as [-> ->].
  rewrite (app_assoc g (text "const {") post), drop_app_length'
    by (rewrite length_app; text_lengths; lia).
  now rewrite <- !app_assoc.
Qed.

(** ** More about the run *)

(** Either the file is there and may be read and written, or the run fails. *)
Lemma file_cases (path : str) (w : world) :
  (exists f, files w !! path = Some f
             /\ readable f = true /\ writable f = true)
  \/ (files w !! path = None
      \/ (exists f, files w !! path = Some f
                    /\ (readable f = false \/ writable f = false))).
Proof.
  destruct (files w !! path) as [f|] eqn:E; [|right; now left].
  destruct (readable f) eqn:Hr; [|right; right; exists f; auto].
  destruct (writable f) eqn:Hw; [|right; right; exists f; auto].
  left; exists f; auto.
Qed.

(** ** Further properties *)

(** X1.  Step 2 gives back every content as it was, so the transformation is
    steps 1, 3 and 4 alone. *)
Theorem import_list_cleanup_is_identity :
  (forall s, import_list_cleanup s = s)
  /\ (forall s,
        transform s
        = reference_substitution (hook_insertion (import_substitution s))).
Proof.
  split; [apply import_list_cleanup_id|].
  intros s; unfold transform; now rewrite import_list_cleanup_id.
Qed.

(** X2.  After step 4 no [Colors.] stands after a word boundary, in the
    output of the step and in the output of the whole transformation; a
    second run of the step changes nothing more. *)
Theorem reference_substitution_complete (s : str) :
  re_search colors_pattern (reference_substitution s) = None
  /\ reference_substitution (reference_substitution s)
     = reference_substitution s
  /\ re_search colors_pattern (transform s) = None.
Proof.
  assert (H : forall t, re_search colors_pattern (reference_substitution t)
                        = None)
    by (intros t; now apply colors_search_after).
  split; [apply H|]; split; [|apply H].
  apply reference_substitution_absent, H.
Qed.

(** X3.  Step 4 keeps the length of the content, and at each position it
    puts [c] where [Colors.] begins after a word boundary and leaves the
    character as it was everywhere else. *)
Theorem reference_substitution_pointwise (s : str) (i : nat) :
  length (reference_substitution s) = length s
  /\ reference_substitution s !! i
     = if negb (is_word_opt (last (take i s)))
          && starts_with (text "Colors.") (drop i s)
       then Some 99%N else s !! i.
Proof.
  rewrite <- last_char_None; apply colors_sub_pointwise.
Qed.

(** X4.  In a file with no [export default function ] before the
    declaration, whose body has no closing brace and no [const {] before its
    first [const {], step 3 puts the hook line just before that [const {];
    run again on its own output, it puts a second hook line there. *)
Theorem hook_insertion_at_declaration (pre ident body post : str) :
  ~ occurs (text "export default function ") pre ->
  forallb is_word ident = true -> ident <> [] ->
  forallb (fun c => negb (N.eqb c 125)) body = true ->
  ~ occurs (text "const {") body ->
  let s := pre ++ (text "export default function " ++ ident ++ text "() {"
                   ++ body) ++ text "const {" ++ post in
  hook_insertion s
  = pre ++ (text "export default function " ++ ident ++ text "() {" ++ body)
    ++ (text "const { colors } = useTheme();" ++ [NL] ++ text "  ")
    ++ text "const {" ++ post
  /\ hook_insertion (hook_insertion s)
     = pre ++ (text "export default function " ++ ident ++ text "() {" ++ body)
       ++ (text "const { colors } = useTheme();" ++ [NL] ++ text "  ")
       ++ (text "const { colors } = useTheme();" ++ [NL] ++ text "  ")
       ++ text "const {" ++ post.
Proof.
  intros Hp Hw Hi Hb Hc s; subst s.
  rewrite (hook_insertion_declaration pre ident body post) by assumption.
  split; [reflexivity|].
  change (text "const { colors } = useTheme();" ++ [NL] ++ text "  ")
    with (text "const {" ++ text " colors } = useTheme();" ++ [NL] ++ text "  ")
    at 1.
  rewrite <- (app_assoc (text "const {")).
  rewrite (hook_insertion_declaration pre ident body) by assumption.
  do 3 f_equal.
Qed.

(** X5.  Step 3 changes the content exactly when its pattern matches
    somewhere, and then the content grows by the 33 characters of the hook
    line and its indentation. *)
Theorem hook_insertion_changes_iff_match (s : str) :
  (hook_insertion s = s <-> re_search component_pattern s = None)
  /\ length (hook_insertion s)
     = length s + match re_search component_pattern s with
                  | Some _ => 33
                  | None => 0
                  end.
Proof.
  destruct (re_search component_pattern s) as [[[j n] mk]|] eqn:E.
  - destruct (hook_insertion_found _ _ _ _ E) as (pre & g & post & Hs & Hh).
    assert (Hl : length (hook_insertion s) = length s + 33).
    { rewrite Hh; rewrite Hs at 1; rewrite !length_app, length_cons.
      text_lengths; change (length (@nil N)) with 0; lia. }
    split; [|exact Hl].
    split; [|discriminate].
    intros H; rewrite H in Hl; lia.
  - rewrite (hook_insertion_no_match _ E); split; [|lia].
    now split.
Qed.

(** X6.  Whatever the arguments and the outcome, the run leaves every file
    other than the one named by its first argument as it was. *)
Theorem main_touches_only_its_file (argv : list str) (w : world) (other : str) :
  other <> nth 1 argv [] ->
  files (main argv w).2 !! other = files w !! other.
Proof.
  intros Ho; unfold main; destruct (length argv <? 2); [reflexivity|].
  destruct (file_cases (nth 1 argv []) w) as [(f & Hf & Hr & Hw) | H].
  - rewrite (refactor_screen_ok _ _ f Hf Hr Hw); cbn [snd files].
    now rewrite lookup_insert_ne.
  - now destruct (refactor_screen_fails _ _ H) as (evs & -> & _).
Qed.

(** X7.  The run creates no file and removes none: a path that names no file
    is not created, although opening it for writing would create it, because
    the file is opened for reading first. *)
Theorem main_keeps_the_set_of_files (argv : list str) (w : world) :
  dom (files (main argv w).2) = dom (files w).
Proof.
  unfold main; destruct (length argv <? 2); [reflexivity|].
  destruct (file_cases (nth 1 argv []) w) as [(f & Hf & Hr & Hw) | H].
  - rewrite (refactor_screen_ok _ _ f Hf Hr Hw); cbn [snd files].
    apply dom_insert_lookup_L; now rewrite Hf.
  - now destruct (refactor_screen_fails _ _ H) as (evs & -> & _).
Qed.

(** X8.  An exit status of 0 means that the work was done: a path was
    given, it names a file that may be read and written, after the run that
    file holds the transformed content with its permissions as before, and
    the events of the run are the two openings and the success line, in this
    order. *)
Theorem exit_status_zero_means_done (argv : list str) (w : world) :
  exit_status (main argv w).1 = 0%Z ->
  2 <= length argv
  /\ exists f,
       files w !! nth 1 argv [] = Some f
       /\ readable f = true /\ writable f = true
       /\ files (main argv w).2 !! nth 1 argv []
          = Some {| data := transform (data f); readable := readable f;
                    writable := writable f |}
       /\ events (main argv w).2
          = events w ++ [EvOpen (nth 1 argv []) ReadMode;
                         EvOpen (nth 1 argv []) WriteMode;
                         EvPrint (success_message (nth 1 argv []))].
Proof.
  unfold main; destruct (Nat.ltb_spec (length argv) 2) as [Hl|Hl];
    [discriminate|].
  destruct (file_cases (nth 1 argv []) w) as [(f & Hf & Hr & Hw) | H].
  - rewrite (refactor_screen_ok _ _ f Hf Hr Hw); intros _.
    split; [exact Hl|]; exists f; cbn [snd files events].
    now rewrite lookup_insert_eq, <- !app_assoc.
  - destruct (refactor_screen_fails _ _ H) as (evs & -> & _); discriminate.
Qed.

End Script.

(** ** The claims on sample inputs *)

Lemma sample_world_lookup (content : str) :
  files (sample_world content) !! sample_path = Some (sample_file content).
Proof. apply lookup_singleton_eq. Qed.

Lemma sample_screen_plain :
  ~ occurs (text "import { Colors,") sample_screen
  /\ ~ occurs (text "from '@/src/constants';") sample_screen
  /\ ~ occurs (text "Colors.") sample_screen.
Proof.
  repeat split; apply not_occurs_containsb; vm_compute; reflexivity.
Qed.

Lemma hook_insertion_first_match_witness :
  hook_insertion ascii_only
    ((text "import React from 'react';" ++ [NL])
     ++ (text "export default function Screen() {" ++ [NL]
         ++ text "  const { navigation } = useNavigation();")
     ++ [NL] ++ text "}")
  = (text "import React from 'react';" ++ [NL])
    ++ (text "export default function Screen() {" ++ [NL]
        ++ text "  const { colors } = useTheme();" ++ [NL]
        ++ text "  const { navigation } = useNavigation();")
    ++ [NL] ++ text "}".
Proof.
  apply (proj1 (hook_insertion_first_match ascii_only)).
  vm_compute; reflexivity.
Defined.

(** The first match of the pattern is in a comment before the declaration:
    the line goes there, and not before [const { navigation }]. *)
Lemma hook_insertion_goes_to_earlier_match :
  hook_insertion ascii_only
    ((text "// export default function Old() { const { a } = b; }" ++ [NL])
     ++ (text "export default function Screen() {" ++ [NL]
         ++ text "  const { navigation } = useNavigation();"))
  = (text "// export default function Old() { const { colors } = useTheme();"
     ++ [NL] ++ text "  const { a } = b; }" ++ [NL])
    ++ (text "export default function Screen() {" ++ [NL]
        ++ text "  const { navigation } = useNavigation();")
  /\ hook_insertion ascii_only
       ((text "// export default function Old() { const { a } = b; }" ++ [NL])
        ++ (text "export default function Screen() {" ++ [NL]
            ++ text "  const { navigation } = useNavigation();"))
     <> (text "// export default function Old() { const { a } = b; }" ++ [NL])
        ++ (text "export default function Screen() {" ++ [NL]
            ++ text "  const { colors } = useTheme();" ++ [NL]
            ++ text "  const { navigation } = useNavigation();").
Proof.
  split; [vm_compute; reflexivity|].
  vm_compute; discriminate.
Qed.

Lemma hook_insertion_blocked_by_brace_witness :
  re_search ascii_only component_pattern
    ((text "import React from 'react';" ++ [NL])
     ++ text "export default function " ++ text "Screen" ++ text "() {"
     ++ ([NL] ++ text "  if (ready) { init(); ") ++ [125%N]
     ++ ([NL] ++ text "  const { navigation } = useNavigation();")) = None
  /\ hook_insertion ascii_only
       ((text "import React from 'react';" ++ [NL])
        ++ text "export default function " ++ text "Screen" ++ text "() {"
        ++ ([NL] ++ text "  if (ready) { init(); ") ++ [125%N]
        ++ ([NL] ++ text "  const { navigation } = useNavigation();"))
     = (text "import React from 'react';" ++ [NL])
       ++ text "export default function " ++ text "Screen" ++ text "() {"
       ++ ([NL] ++ text "  if (ready) { init(); ") ++ [125%N]
       ++ ([NL] ++ text "  const { navigation } = useNavigation();").
Proof.
  apply (hook_insertion_blocked_by_brace ascii_only
           (text "import React from 'react';" ++ [NL]) (text "Screen")
           ([NL] ++ text "  if (ready) { init(); ")
           ([NL] ++ text "  const { navigation } = useNavigation();")).
  - vm_compute; reflexivity.
  - discriminate.
  - apply not_occurs_containsb; vm_compute; reflexivity.
  - vm_compute; reflexivity.
Defined.


Lemma no_argument_usage_witness :
  main ascii_only [text "refactor-screen.py"] empty_world
  = (Raise (SystemExit 1),
     {| files := files empty_world;
        events := events empty_world ++ [EvPrint usage_message] |})
  /\ exit_status (main ascii_only [text "refactor-screen.py"] empty_world).1
     = 1%Z.
Proof.
  apply (no_argument_usage ascii_only [text "refactor-screen.py"] empty_world).
  simpl; lia.
Defined.

Lemma missing_file_raises_witness :
  exists evs,
    main ascii_only [text "refactor-screen.py"; sample_path] empty_world
    = (Raise OSError,
       {| files := files empty_world; events := events empty_world ++ evs |})
    /\ (EvPrint (success_message sample_path) ∉ evs)
    /\ exit_status
         (main ascii_only [text "refactor-screen.py"; sample_path]
            empty_world).1 = 1%Z.
Proof.
  apply (missing_file_raises ascii_only (text "refactor-screen.py")
           sample_path empty_world).
  left; apply lookup_empty.
Defined.

Lemma refactor_screen_deterministic_witness :
  exists w1' w2' content,
    refactor_screen ascii_only sample_path (sample_world sample_screen)
    = (Ok tt, w1')
    /\ refactor_screen ascii_only sample_path
         {| files := files (sample_world sample_screen);
            events := [EvPrint usage_message] |}
       = (Ok tt, w2')
    /\ data <$> files w1' !! sample_path = Some content
    /\ data <$> files w2' !! sample_path = Some content
    /\ events w1'
       = events (sample_world sample_screen)
         ++ [EvOpen sample_path ReadMode; EvOpen sample_path WriteMode;
             EvPrint (success_message sample_path)]
    /\ events w2'
       = [EvPrint usage_message]
         ++ [EvOpen sample_path ReadMode; EvOpen sample_path WriteMode;
             EvPrint (success_message sample_path)].
Proof.
  apply (refactor_screen_deterministic ascii_only sample_path sample_path
           (sample_world sample_screen)
           {| files := files (sample_world sample_screen);
              events := [EvPrint usage_message] |}
           (sample_file sample_screen) (sample_file sample_screen));
    try reflexivity; apply sample_world_lookup.
Defined.

Lemma unchanged_without_matches_witness :
  exists w',
    refactor_screen ascii_only sample_path (sample_world sample_screen)
    = (Ok tt, w')
    /\ data <$> files w' !! sample_path
       = Some (data (sample_file sample_screen))
    /\ (EvOpen sample_path WriteMode ∈ events w').
Proof.
  destruct sample_screen_plain as (H1 & H2 & H4).
  apply (unchanged_without_matches ascii_only sample_path
           (sample_world sample_screen) (sample_file sample_screen)).
  - apply sample_world_lookup.
  - reflexivity.
  - reflexivity.
  - exact H1.
  - exact H2.
  - vm_compute; reflexivity.
  - intros a b Hab; exfalso; apply H4; now exists a, b.
Defined.

(** ** The further properties on sample inputs *)

Lemma hook_insertion_at_declaration_witness :
  hook_insertion ascii_only
    ((text "import React from 'react';" ++ [NL])
     ++ (text "export default function " ++ text "HomeScreen" ++ text "() {"
         ++ ([NL] ++ text "  "))
     ++ text "const {" ++ text " navigation } = useNavigation();")
  = (text "import React from 'react';" ++ [NL])
    ++ (text "export default function " ++ text "HomeScreen" ++ text "() {"
        ++ ([NL] ++ text "  "))
    ++ (text "const { colors } = useTheme();" ++ [NL] ++ text "  ")
    ++ text "const {" ++ text " navigation } = useNavigation();"
  /\ hook_insertion ascii_only
       (hook_insertion ascii_only
          ((text "import React from 'react';" ++ [NL])
           ++ (text "export default function " ++ text "HomeScreen"
               ++ text "() {" ++ ([NL] ++ text "  "))
           ++ text "const {" ++ text " navigation } = useNavigation();"))
     = (text "import React from 'react';" ++ [NL])
       ++ (text "export default function " ++ text "HomeScreen" ++ text "() {"
           ++ ([NL] ++ text "  "))
       ++ (text "const { colors } = useTheme();" ++ [NL] ++ text "  ")
       ++ (text "const { colors } = useTheme();" ++ [NL] ++ text "  ")
       ++ text "const {" ++ text " navigation } = useNavigation();".
Proof.
  apply (hook_insertion_at_declaration ascii_only
           (text "import React from 'react';" ++ [NL]) (text "HomeScreen")
           ([NL] ++ text "  ") (text " navigation } = useNavigation();")).
  - apply not_occurs_containsb; vm_compute; reflexivity.
  - vm_compute; reflexivity.
  - discriminate.
  - vm_compute; reflexivity.
  - apply not_occurs_containsb; vm_compute; reflexivity.
Defined.

Lemma main_touches_only_its_file_witness :
  files (main ascii_only [text "refactor-screen.py"; sample_path]
           (sample_world sample_screen)).2 !! text "app/Other.tsx"
  = files (sample_world sample_screen) !! text "app/Other.tsx".
Proof.
  apply (main_touches_only_its_file ascii_only
           [text "refactor-screen.py"; sample_path]
           (sample_world sample_screen) (text "app/Other.tsx")).
  vm_compute; discriminate.
Defined.

Lemma exit_status_zero_means_done_witness :
  2 <= length [text "refactor-screen.py"; sample_path]
  /\ exists f,
       files (sample_world sample_screen) !! sample_path = Some f
       /\ readable f = true /\ writable f = true
       /\ files (main ascii_only [text "refactor-screen.py"; sample_path]
                   (sample_world sample_screen)).2 !! sample_path
          = Some {| data := transform ascii_only (data f);
                    readable := readable f; writable := writable f |}
       /\ events (main ascii_only [text "refactor-screen.py"; sample_path]
                    (sample_world sample_screen)).2
          = events (sample_world sample_screen)
            ++ [EvOpen sample_path ReadMode; EvOpen sample_path WriteMode;
                EvPrint (success_message sample_path)].
Proof.
  apply (exit_status_zero_means_done ascii_only
           [text "refactor-screen.py"; sample_path]
           (sample_world sample_screen)).
  change (main ascii_only [text "refactor-screen.py"; sample_path]
            (sample_world sample_screen))
    with (refactor_screen ascii_only sample_path (sample_world sample_screen)).
  now rewrite (refactor_screen_ok ascii_only sample_path
                 (sample_world sample_screen) (sample_file sample_screen)
                 (sample_world_lookup sample_screen) eq_refl eq_refl).
Defined.
